(** * Property-path resolution of es-toolkit's compat layer: [has] and [invoke]

    A shallow embedding of [src/compat/object/has.ts] and of the compat
    [invoke] utility, together with the fragment of JavaScript they run on:
    values, objects with own properties and a prototype link, arrays and
    arguments objects with a length, function objects, and a store.

    Scope of the JavaScript model.
    - Numbers are the integer-valued ones (type [Z]); the key tokens of a
      path are strings, integers and symbols.
    - Properties are data properties: there are no accessors and no
      proxies, so reading a property never runs user code.
    - A function object carries a code pointer; what the code does (result,
      exception, writes to the store) is a parameter of the development.
    - A function object answers [apply] with the intrinsic
      [Function.prototype.apply]; on every other value [apply] is an
      ordinary member, read like any other.
    - The array of flattened arguments is a temporary of [invoke]: it is
      placed in the store only where it is handed over as a value. *)

From Stdlib Require Import ZArith Ascii String List Bool Lia.
From stdpp Require Import base option countable gmap strings pretty.

Local Open Scope string_scope.
Local Open Scope list_scope.
Local Open Scope Z_scope.

(** ** Values, property keys, objects and the store *)

Definition loc := positive.

(** Code pointer of a function object. *)
Definition fn := nat.

Record symbol := Sym { sym_id : nat; sym_description : string }.

(** [PropertyKey]: what a path token may be. *)
Inductive key :=
| KStr (s : string)
| KNum (n : Z)
| KSym (y : symbol).

(** A property name once [ToPropertyKey] has been applied. *)
Inductive pkey :=
| PStr (s : string)
| PSym (y : symbol).

Inductive value :=
| VUndefined
| VNull
| VBool (b : bool)
| VNum (n : Z)
| VStr (s : string)
| VSym (y : symbol)
| VObj (l : loc).

(** [PropertyKey | readonly PropertyKey[]]: the [path] parameter. *)
Inductive path :=
| PKey (k : key)
| PSeq (ks : list key).

#[global] Instance symbol_eq_dec : EqDecision symbol.
Proof. solve_decision. Defined.

#[global] Instance symbol_countable : Countable symbol.
Proof.
  refine (inj_countable' (fun y => (sym_id y, sym_description y))
                         (fun p => Sym p.1 p.2) _).
  by intros [].
Defined.

#[global] Instance pkey_eq_dec : EqDecision pkey.
Proof. solve_decision. Defined.

#[global] Instance pkey_countable : Countable pkey.
Proof.
  refine (inj_countable'
            (fun p => match p with PStr s => inl s | PSym y => inr y end)
            (fun p => match p with inl s => PStr s | inr y => PSym y end) _).
  by intros [].
Defined.

#[global] Instance key_eq_dec : EqDecision key.
Proof. solve_decision. Defined.

#[global] Instance value_eq_dec : EqDecision value.
Proof. solve_decision. Defined.

(** What kind of object a heap cell is: decides [Array.isArray],
    [isArguments], [typeof] and callability.  Arrays and arguments objects
    carry their [length]. *)
Inductive class :=
| ClassObject
| ClassArray (len : Z)
| ClassArguments (len : Z)
| ClassFunction (f : fn).

Record object := Object {
  cls : class;
  props : gmap pkey value;
  proto : option loc
}.

(** The store: the heap of objects and the prototypes a primitive's member
    access goes through. *)
Record store := Store {
  objects : gmap loc object;
  string_prototype : option loc;
  number_prototype : option loc;
  boolean_prototype : option loc;
  symbol_prototype : option loc
}.

(** ** Completions and the monad of JavaScript code *)

Inductive error :=
| TypeError
| ParseError
| Thrown (v : value).

Inductive outcome (A : Type) :=
| Return (a : A)
| Throw (e : error).
Arguments Return {A} a.
Arguments Throw {A} e.

Definition JS (A : Type) : Type := store -> outcome A * store.

Definition ret {A} (a : A) : JS A := fun h => (Return a, h).

Definition bind {A B} (m : JS A) (k : A -> JS B) : JS B :=
  fun h =>
    match m h with
    | (Return a, h') => k a h'
    | (Throw e, h') => (Throw e, h')
    end.

Definition lift {A} (r : outcome A) : JS A := fun h => (r, h).

Definition throw {A} (e : error) : JS A := lift (Throw e).

Definition reads {A} (f : store -> A) : JS A := fun h => (Return (f h), h).

Declare Scope js_scope.
Delimit Scope js_scope with js.
Notation "x <- m ;; k" := (bind m (fun x => k))
  (at level 100, m at next level, right associativity) : js_scope.
Local Open Scope js_scope.

(** ** Primitive operations of the language *)

(** [v == null] *)
Definition nullish (v : value) : bool :=
  match v with
  | VUndefined | VNull => true
  | _ => false
  end.

(** [ToPropertyKey] on a [PropertyKey]: a number becomes its decimal
    string. *)
Definition ToPropertyKey (k : key) : pkey :=
  match k with
  | KStr s => PStr s
  | KNum n => PStr (pretty n)
  | KSym y => PSym y
  end.

Definition digit (c : ascii) : option Z :=
  let n := Z.of_N (N_of_ascii c) in
  if (48 <=? n) && (n <=? 57) then Some (n - 48) else None.

Fixpoint digits (acc : Z) (s : string) : option Z :=
  match s with
  | EmptyString => Some acc
  | String c r =>
      match digit c with
      | Some d => digits (10 * acc + d) r
      | None => None
      end
  end.

(** The canonical decimal numerals, with their value: the single digit
    zero, or a non-zero digit followed by digits. *)
Definition unsigned_integer (s : string) : option Z :=
  match s with
  | EmptyString => None
  | String c r =>
      if Ascii.eqb c "0" then
        match r with
        | EmptyString => Some 0
        | String _ _ => None
        end
      else digits 0 s
  end.

Definition class_of (h : store) (v : value) : option class :=
  match v with
  | VObj l => cls <$> objects h !! l
  | _ => None
  end.

(** Own property of a value, as [Object.hasOwn] and the first step of a
    member access see it.  A string primitive owns its indices and
    [length]; arrays and arguments objects own [length]. *)
Definition own_property (h : store) (v : value) (p : pkey) : option value :=
  match v with
  | VStr s =>
      match p with
      | PStr name =>
          if decide (name = "length") then Some (VNum (Z.of_nat (String.length s)))
          else
            match unsigned_integer name with
            | Some i =>
                match String.get (Z.to_nat i) s with
                | Some c => Some (VStr (String c EmptyString))
                | None => None
                end
            | None => None
            end
      | PSym _ => None
      end
  | VObj l =>
      match objects h !! l with
      | Some o =>
          match cls o, decide (p = PStr "length") with
          | ClassArray len, left _ => Some (VNum len)
          | ClassArguments len, left _ => Some (VNum len)
          | _, _ => props o !! p
          end
      | None => None
      end
  | _ => None
  end.

(** Where a member access continues when the property is not an own
    one. *)
Definition proto_of (h : store) (v : value) : option loc :=
  match v with
  | VObj l => match objects h !! l with Some o => proto o | None => None end
  | VStr _ => string_prototype h
  | VNum _ => number_prototype h
  | VBool _ => boolean_prototype h
  | VSym _ => symbol_prototype h
  | VUndefined | VNull => None
  end.

Fixpoint lookup_chain (h : store) (fuel : nat) (v : value) (p : pkey) : option value :=
  match own_property h v p with
  | Some x => Some x
  | None =>
      match fuel with
      | O => None
      | S n =>
          match proto_of h v with
          | Some l => lookup_chain h n (VObj l) p
          | None => None
          end
      end
  end.

(** A prototype chain has no cycle, so it has at most as many links as
    there are objects. *)
Definition chain_fuel (h : store) : nat := S (size (objects h)).

(** The prototype chain of [v] ends within [n] links. *)
Fixpoint chain_within (h : store) (n : nat) (v : value) : bool :=
  match proto_of h v with
  | None => true
  | Some l =>
      match n with
      | O => false
      | S m => chain_within h m (VObj l)
      end
  end.

(** [HasProperty] and [Get] of a non-nullish value. *)
Definition HasProperty (h : store) (v : value) (p : pkey) : bool :=
  bool_decide (is_Some (lookup_chain h (chain_fuel h) v p)).

Definition Get (h : store) (v : value) (p : pkey) : value :=
  default VUndefined (lookup_chain h (chain_fuel h) v p).

(** [Object.hasOwn(o, k)]: [ToObject] throws on [null] and [undefined]. *)
Definition hasOwn (o : value) (k : key) : JS bool :=
  if nullish o then throw TypeError
  else reads (fun h => bool_decide (is_Some (own_property h o (ToPropertyKey k)))).

(** [o[k]] *)
Definition getMember (o : value) (k : key) : JS value :=
  if nullish o then throw TypeError
  else reads (fun h => Get h o (ToPropertyKey k)).

(** [o?.[k]] *)
Definition getOptional (o : value) (k : key) : JS value :=
  if nullish o then ret VUndefined else getMember o k.

(** [Array.isArray(v)] *)
Definition isArray (h : store) (v : value) : bool :=
  match class_of h v with
  | Some (ClassArray _) => true
  | _ => false
  end.

(** [typeof v === 'object'] *)
Definition typeof_object (h : store) (v : value) : bool :=
  match v with
  | VNull => true
  | VObj _ =>
      match class_of h v with
      | Some (ClassFunction _) => false
      | _ => true
      end
  | _ => false
  end.

(** [ToNumber], with [None] for NaN.  String numerals are the runs of
    decimal digits (the empty string is zero); the other numeric literals
    of the language (sign, fraction, exponent, radix prefix, surrounding
    white space) do not denote keys that [isIndex] accepts and are read as
    NaN.  Converting an object would run its [valueOf]/[toString]: it is
    rendered as the [TypeError] of an object without a primitive value. *)
Definition ToNumber (v : value) : outcome (option Z) :=
  match v with
  | VUndefined => Return None
  | VNull => Return (Some 0)
  | VBool b => Return (Some (if b then 1 else 0))
  | VNum n => Return (Some n)
  | VStr s => Return (digits 0 s)
  | VSym _ => Throw TypeError
  | VObj _ => Throw TypeError
  end.

(** [x < y]: two strings are compared as strings, anything else as
    numbers, left operand first. *)
Definition lessThan (x y : value) : outcome bool :=
  match x, y with
  | VStr a, VStr b => Return (String.ltb a b)
  | _, _ =>
      match ToNumber x with
      | Throw e => Throw e
      | Return nx =>
          match ToNumber y with
          | Throw e => Throw e
          | Return ny =>
              Return match nx, ny with
                     | Some a, Some b => a <? b
                     | _, _ => false
                     end
          end
      end
  end.

Definition value_of_key (k : key) : value :=
  match k with
  | KStr s => VStr s
  | KNum n => VNum n
  | KSym y => VSym y
  end.

(** [String(v)] for the values a last path token can be. *)
Definition ToString (v : value) : string :=
  match v with
  | VUndefined => "undefined"
  | VNull => "null"
  | VBool b => if b then "true" else "false"
  | VNum n => pretty n
  | VStr s => s
  | VSym y => "Symbol(" +:+ sym_description y +:+ ")"
  | VObj _ => "[object Object]"
  end.

(** [Array.prototype.flat] with depth one: the present elements of an
    array argument take its place, anything else stays. *)
Definition array_items (h : store) (a : value) (len : Z) : list value :=
  flat_map
    (fun i =>
       let p := PStr (pretty (Z.of_nat i)) in
       if HasProperty h a p then [Get h a p] else [])
    (seq 0 (Z.to_nat len)).

Definition flat (h : store) (args : list value) : list value :=
  flat_map
    (fun v =>
       match class_of h v with
       | Some (ClassArray len) => array_items h v len
       | _ => [v]
       end)
    args.

(** A dense array holding [items]. *)
Definition array_cell (items : list value) : object :=
  Object (ClassArray (Z.of_nat (length items)))
    (list_to_map (imap (fun i v => (PStr (pretty (Z.of_nat i)), v)) items))
    None.

(** An array literal: a new object at an unused location. *)
Definition new_array (items : list value) : JS value :=
  fun h =>
    let l := fresh (dom (objects h)) in
    (Return (VObj l),
     Store (<[l := array_cell items]> (objects h))
       (string_prototype h) (number_prototype h)
       (boolean_prototype h) (symbol_prototype h)).

(** ** Collaborators with a leaf contract *)

Definition MAX_SAFE_INTEGER : Z := 2 ^ 53 - 1.

(** Modelled from the spec: [_internal/isIndex.ts] is not among the sources.
    "true iff key is a value that can serve as a non-negative integer array
    index: a number or numeric string with no sign, no leading zero (except
    the literal 0), no fractional part, and within a safe integer range
    (conventionally < 2^53 - 1)". *)
Definition isIndex (k : key) : bool :=
  match k with
  | KNum n => (0 <=? n) && (n <? MAX_SAFE_INTEGER)
  | KStr s =>
      match unsigned_integer s with
      | Some n => n <? MAX_SAFE_INTEGER
      | None => false
      end
  | KSym _ => false
  end.

(** Modelled from the spec: [predicate/isArguments.ts] is not among the
    sources.  "true iff value is an array-like arguments object (has numeric
    indices and a length, but is not a true sequence type)". *)
Definition isArguments (h : store) (v : value) : bool :=
  match class_of h v with
  | Some (ClassArguments _) => true
  | _ => false
  end.

(** Modelled from the spec: [_internal/toKey.ts] is not among the sources.
    "canonicalizes a numeric value into its string property-key form". *)
Definition toKey (n : Z) : string := pretty n.

(** Modelled from the spec: [array/last.ts] is not among the sources.
    "returns the final element of an ordered sequence, or undefined if
    empty"; [None] stands for [undefined]. *)
Fixpoint last {A} (array : list A) : option A :=
  match array with
  | [] => None
  | [x] => Some x
  | _ :: rest => last rest
  end.

(** ** The two utilities *)

Section PathCore.

(** The tokenizer and the accessor are consumed through their interface:
    [isDeepKey] and [toPath] of [util/toPath.ts] and
    [_internal/isDeepKey.ts], [get] of [object/get.ts] (a read of the
    store that always yields a value), and the code of the function
    objects. *)
Variable isDeepKey : string -> bool.
Variable toPath : string -> outcome (list key).
Variable get : store -> value -> path -> value -> value.
Variable call : fn -> value -> list value -> JS value.

(** *** has.ts *)

(** Lines 88-96: the normalization of [path]. *)
Definition resolvedPath (object : value) (path : path) : JS (list key) :=
  match path with
  | PSeq ks => ret ks
  | PKey (KStr s) =>
      if isDeepKey s then
        direct <- getOptional object (KStr s) ;;
        if nullish direct then lift (toPath s) else ret [KStr s]
      else ret [KStr s]
  | PKey k => ret [k]
  end.

(** Line 109. *)
Definition isSparseIndex (current : value) (key : key) : JS bool :=
  arrayLike <- reads (fun h => isArray h current || isArguments h current) ;;
  if arrayLike && isIndex key then
    len <- getMember current (KStr "length") ;;
    lift (lessThan (value_of_key key) len)
  else ret false.

(** Lines 104-119: the loop, from the token at hand. *)
Fixpoint walk (resolved : list key) (current : value) : JS bool :=
  match resolved with
  | [] => ret true
  | key :: rest =>
      missing <- (if nullish current then ret true
                  else own <- hasOwn current key ;; ret (negb own)) ;;
      stop <- (if missing : bool then
                 sparse <- isSparseIndex current key ;; ret (negb sparse)
               else ret false) ;;
      if stop : bool then ret false
      else next <- getMember current key ;; walk rest next
  end.

Definition has (object : value) (path : path) : JS bool :=
  resolved <- resolvedPath object path ;;
  if (length resolved =? 0)%nat then ret false
  else walk resolved object.

(** *** invoke *)

(** [func?.apply(parent, args)]: nothing happens on a nullish [func].  On a
    function object [apply] is the intrinsic one, which calls the function
    with [parent] as receiver and the elements of [args] as arguments.  On
    any other value the member [apply] is read and called as a method, with
    [func] as receiver and [parent] and the array [args] as its two
    arguments; calling a member that is no function is a TypeError. *)
Definition applyOptional (func parent : value) (args : list value) : JS value :=
  if nullish func then ret VUndefined
  else
    fun h =>
      match class_of h func with
      | Some (ClassFunction f) => call f parent args h
      | _ =>
          match class_of h (Get h func (PStr "apply")) with
          | Some (ClassFunction g) =>
              (array <- new_array args ;; call g func [parent; array]) h
          | _ => (Throw TypeError, h)
          end
      end.

Definition invokeImpl (object : value) (path : list key) (args : list value) : JS value :=
  parent <- reads (fun h => get h object (PSeq (removelast path)) object) ;;
  if nullish parent then ret VUndefined
  else
    let lastKey := last path in
    let lastValue := from_option value_of_key VUndefined lastKey in
    let lastKey :=
      match lastValue with
      | VNum n => toKey n
      | _ => ToString lastValue
      end in
    func <- reads (fun h => get h parent (PKey (KStr lastKey)) VUndefined) ;;
    applyOptional func parent args.

(** The [switch] on [typeof path]; the last branch of its default case
    takes values that are not of the type of [path]. *)
Definition invoke (object : value) (path : path) (args : list value) : JS value :=
  args <- reads (fun h => flat h args) ;;
  if nullish object then ret VUndefined
  else
    match path with
    | PKey (KStr s) =>
        own <- (fun h =>
                  if typeof_object h object then hasOwn object (KStr s) h
                  else (Return false, h)) ;;
        if own : bool then invokeImpl object [KStr s] args
        else
          tokens <- lift (toPath s) ;;
          invokeImpl object tokens args
    | PKey k => invokeImpl object [k] args
    | PSeq ks => invokeImpl object ks args
    end.

End PathCore.

(** ** The tokenizer and the accessor as the specification describes them *)

Module Spec.

Definition is_char (c d : ascii) : bool := bool_decide (c = d).

Definition is_delimiter (c : ascii) : bool :=
  is_char c "." || is_char c "[" || is_char c "]".

Definition is_quote (c : ascii) : bool :=
  is_char c "'" || is_char c (ascii_of_nat 34).

Fixpoint contains (p : ascii -> bool) (s : string) : bool :=
  match s with
  | EmptyString => false
  | String c r => p c || contains p r
  end.

(** Modelled from the spec: [_internal/isDeepKey.ts] is not among the
    sources.  "reports whether a string path contains path-delimiter
    syntax: a dot separator, or bracket syntax". *)
Definition isDeepKey (s : string) : bool :=
  contains (fun c => is_char c "." || is_char c "[") s.

Fixpoint rev_string (acc s : string) : string :=
  match s with
  | EmptyString => acc
  | String c r => rev_string (String c acc) r
  end.

Fixpoint last_char (s : string) : option ascii :=
  match s with
  | EmptyString => None
  | String c EmptyString => Some c
  | String _ r => last_char r
  end.

Fixpoint drop_last (s : string) : string :=
  match s with
  | EmptyString => EmptyString
  | String c EmptyString => EmptyString
  | String c r => String c (drop_last r)
  end.

(** The token of a plain segment; an empty run gives no token. *)
Definition plain_token (buf : string) : list key :=
  match rev_string EmptyString buf with
  | EmptyString => []
  | s => [KStr s]
  end.

(** The token of a bracket segment: the text between matching quotes,
    else an index when the Index Classifier accepts it, else the text. *)
Definition bracket_token (buf : string) : list key :=
  match rev_string EmptyString buf with
  | EmptyString => []
  | String q r =>
      if is_quote q && bool_decide (last_char r = Some q) then [KStr (drop_last r)]
      else
        match unsigned_integer (String q r) with
        | Some n => if isIndex (KStr (String q r)) then [KNum n] else [KStr (String q r)]
        | None => [KStr (String q r)]
        end
  end.

Inductive mode :=
| Plain
| Escape
| Bracket (quote : option ascii).

(** One pass, left to right; [buf] holds the current segment backwards. *)
Fixpoint scan (m : mode) (buf : string) (s : string) : outcome (list key) :=
  match s with
  | EmptyString =>
      match m with
      | Plain => Return (plain_token buf)
      | Escape => Return (plain_token (String "\" buf))
      | Bracket _ => Throw ParseError
      end
  | String c r =>
      match m with
      | Plain =>
          if is_char c "." then
            match scan Plain EmptyString r with
            | Return ks => Return (plain_token buf ++ ks)
            | Throw e => Throw e
            end
          else if is_char c "[" then
            match scan (Bracket None) EmptyString r with
            | Return ks => Return (plain_token buf ++ ks)
            | Throw e => Throw e
            end
          else if is_char c "\" then scan Escape buf r
          else scan Plain (String c buf) r
      | Escape =>
          if is_delimiter c then scan Plain (String c buf) r
          else scan Plain (String c (String "\" buf)) r
      | Bracket None =>
          if is_char c "]" then
            match scan Plain EmptyString r with
            | Return ks => Return (bracket_token buf ++ ks)
            | Throw e => Throw e
            end
          else if is_quote c then scan (Bracket (Some c)) (String c buf) r
          else scan (Bracket None) (String c buf) r
      | Bracket (Some q) =>
          if is_char c q then scan (Bracket None) (String c buf) r
          else scan (Bracket (Some q)) (String c buf) r
      end
  end.

(** Modelled from the spec: [util/toPath.ts] is not among the sources.
    Plain segments are string tokens; a dot outside brackets separates
    segments and empty segments give no token; a bracket segment runs to
    its closing bracket, quotes inside it protect every character; a
    backslash before a delimiter in a plain segment makes it literal; an
    unterminated bracket fails with a ParseError. *)
Definition toPath (s : string) : outcome (list key) := scan Plain EmptyString s.

Fixpoint get_from (h : store) (current : value) (ks : list key) : value :=
  match ks with
  | [] => current
  | k :: rest =>
      if nullish current then VUndefined
      else get_from h (Get h current (ToPropertyKey k)) rest
  end.

(** Modelled from the spec: [object/get.ts] is not among the sources.
    "resolves an ordered key sequence against object; returns
    defaultValue (or undefined) if any intermediate step is missing or
    null/undefined". *)
Definition get (h : store) (object : value) (p : path) (defaultValue : value) : value :=
  let ks := match p with PSeq ks => ks | PKey k => [k] end in
  match get_from h object ks with
  | VUndefined => defaultValue
  | v => v
  end.

End Spec.


(** ** Stores and code used in the examples *)

Definition heap_of (cells : list (loc * object)) : store :=
  Store (list_to_map cells) None None None None.

Definition plain_object (ps : list (pkey * value)) : object :=
  Object ClassObject (list_to_map ps) None.

Definition array_object (len : Z) (ps : list (pkey * value)) : object :=
  Object (ClassArray len) (list_to_map ps) None.

Definition function_object (f : fn) (ps : list (pkey * value)) : object :=
  Object (ClassFunction f) (list_to_map ps) None.

(** [[, , 3]] at location 1. *)
Definition sparse_store : store :=
  heap_of [(1%positive, array_object 3 [(PStr "2", VNum 3)])].

(** [{}] at location 1 and [[]] at location 2. *)
Definition empty_object_store : store :=
  heap_of [(1%positive, plain_object []); (2%positive, array_object 0 [])].

(** [{ 'a.b': 1 }] at location 1. *)
Definition flat_key_store : store :=
  heap_of [(1%positive, plain_object [(PStr "a.b", VNum 1)])].


Definition write_property (l : loc) (p : pkey) (v : value) (h : store) : store :=
  Store
    (alter (fun o => Object (cls o) (<[p:=v]> (props o)) (proto o)) l (objects h))
    (string_prototype h) (number_prototype h)
    (boolean_prototype h) (symbol_prototype h).

(** The code of the function objects of the examples:
    0 is [(x, y) => x + y] on numbers, 1 is [function () { this.x = 1 }],
    2 is [function () { throw 'boom' }], 3 is [() => 7] and anything else
    is [function () { return this }]. *)
Definition example_code (f : fn) (this : value) (args : list value) : JS value :=
  match f with
  | 0%nat =>
      match args with
      | VNum x :: VNum y :: _ => ret (VNum (x + y))
      | _ => ret VUndefined
      end
  | 1%nat =>
      fun h =>
        match this with
        | VObj l => (Return VUndefined, write_property l (PStr "x") (VNum 1) h)
        | _ => (Return VUndefined, h)
        end
  | 2%nat => throw (Thrown (VStr "boom"))
  | 3%nat => ret (VNum 7)
  | _ => ret this
  end.

(** [{ a: { b: (x, y) => x + y } }] at location 1 and the argument
    [[1, 2]] at location 4. *)
Definition adder_store : store :=
  heap_of [(1%positive, plain_object [(PStr "a", VObj 2%positive)]);
           (2%positive, plain_object [(PStr "b", VObj 3%positive)]);
           (3%positive, function_object 0%nat []);
           (4%positive, array_object 2 [(PStr "0", VNum 1); (PStr "1", VNum 2)])].

(** A function object at location 1 with the own property ['a.b'], a
    function returning 7. *)
Definition function_target_store : store :=
  heap_of [(1%positive, function_object 4%nat [(PStr "a.b", VObj 2%positive)]);
           (2%positive, function_object 3%nat [])].


(** [{ undefined() { return this } }] at location 1. *)
Definition undefined_key_store : store :=
  heap_of [(1%positive, plain_object [(PStr "undefined", VObj 2%positive)]);
           (2%positive, function_object 4%nat [])].

(** [{ 1: () => 7, fail() { throw 'boom' } }] at location 1. *)
Definition indexed_method_store : store :=
  heap_of [(1%positive, plain_object [(PStr "1", VObj 2%positive); (PStr "fail", VObj 3%positive)]);
           (2%positive, function_object 3%nat []);
           (3%positive, function_object 2%nat [])].

(** [{ a: { b: { c: 3 } } }] at location 1, [[1, 2, 3]] at location 4 and
    [[]] at location 5; the objects inherit [toString] from the object at
    location 9. *)
Definition documented_store : store :=
  heap_of [(1%positive, Object ClassObject {[PStr "a" := VObj 2%positive]} (Some 9%positive));
           (2%positive, Object ClassObject {[PStr "b" := VObj 3%positive]} (Some 9%positive));
           (3%positive, Object ClassObject {[PStr "c" := VNum 3]} (Some 9%positive));
           (4%positive, array_object 3 [(PStr "0", VNum 1); (PStr "1", VNum 2); (PStr "2", VNum 3)]);
           (5%positive, array_object 0 []);
           (9%positive, plain_object [(PStr "toString", VObj 10%positive)]);
           (10%positive, function_object 3%nat [])].

(** ** What the specification says, as functions of the store *)

(** [current[key]] for a target that is not nullish. *)
Definition member (h : store) (current : value) (k : key) : value :=
  Get h current (ToPropertyKey k).

(** The token is an own property of the target. *)
Definition owns (h : store) (current : value) (k : key) : bool :=
  negb (nullish current)
  && bool_decide (is_Some (own_property h current (ToPropertyKey k))).

(** The declared length of an ordered sequence or sequence-wrapper. *)
Definition array_length (h : store) (v : value) : option Z :=
  match class_of h v with
  | Some (ClassArray len) | Some (ClassArguments len) => Some len
  | _ => None
  end.

(** The number a token denotes. *)
Definition key_number (k : key) : option Z :=
  match k with
  | KNum n => Some n
  | KStr s => unsigned_integer s
  | KSym _ => None
  end.

(** The sparse-index exception of section 4.3: the target is an ordered
    sequence or a sequence-wrapper, the token passes the Index Classifier,
    and the token is strictly less than the target's length. *)
Definition sparse_index (h : store) (current : value) (k : key) : bool :=
  (isArray h current || isArguments h current)
  && isIndex k
  && match key_number k, array_length h current with
     | Some n, Some len => n <? len
     | _, _ => false
     end.

(** The target the walk stands on once the tokens [pre] are consumed, if
    none of them stopped it. *)
Fixpoint reached (h : store) (current : value) (pre : list key) : option value :=
  match pre with
  | [] => Some current
  | k :: rest =>
      if owns h current k || sparse_index h current k
      then reached h (member h current k) rest
      else None
  end.

(** Every token is satisfied, one after the other. *)
Fixpoint satisfied (h : store) (current : value) (ks : list key) : bool :=
  match ks with
  | [] => true
  | k :: rest =>
      (owns h current k || sparse_index h current k)
      && satisfied h (member h current k) rest
  end.

(** [object?.[path]]: the direct property lookup of the normalization. *)
Definition direct_lookup (h : store) (object : value) (s : string) : value :=
  if nullish object then VUndefined else Get h object (PStr s).

(** The last token as [invokeImpl] normalizes it. *)
Definition normalized_last (k : option key) : string :=
  match k with
  | Some (KNum n) => toKey n
  | Some (KStr s) => s
  | Some (KSym y) => "Symbol(" +:+ sym_description y +:+ ")"
  | None => "undefined"
  end.

(** A string path the tokenizer accepts; the other forms of a path are not
    tokenized. *)
Definition tokenizable (toPath : string -> outcome (list key)) (p : path) : Prop :=
  match p with
  | PKey (KStr s) => exists ks, toPath s = Return ks
  | _ => True
  end.

(** The normalization of section 4.3, step 1. *)
Definition normalized (isDeepKey : string -> bool)
    (toPath : string -> outcome (list key))
    (h : store) (object : value) (p : path) : outcome (list key) :=
  match p with
  | PSeq ks => Return ks
  | PKey (KStr s) =>
      if isDeepKey s && nullish (direct_lookup h object s) then toPath s
      else Return [KStr s]
  | PKey k => Return [k]
  end.

(** The key sequence [invoke] hands to [invokeImpl] (section 4.4, step 2). *)
Definition invoke_tokens (toPath : string -> outcome (list key))
    (h : store) (object : value) (p : path) : outcome (list key) :=
  match p with
  | PKey (KStr s) =>
      if typeof_object h object && owns h object (KStr s) then Return [KStr s]
      else toPath s
  | PKey k => Return [k]
  | PSeq ks => Return ks
  end.

(** [{ a: { apply: () => 7 } }] at location 1. *)
Definition apply_member_store : store :=
  heap_of [(1%positive, plain_object [(PStr "a", VObj 2%positive)]);
           (2%positive, plain_object [(PStr "apply", VObj 3%positive)]);
           (3%positive, function_object 3%nat [])].

(** [[[1, 2], 9]] at location 5, over the cells of [adder_store]. *)
Definition nested_store : store :=
  heap_of [(4%positive, array_object 2 [(PStr "0", VNum 1); (PStr "1", VNum 2)]);
           (5%positive, array_object 2 [(PStr "0", VObj 4%positive); (PStr "1", VNum 9)])].

(** [object[k1][k2]...]: the value the walk stands on after the tokens. *)
Definition descend (h : store) (object : value) (ks : list key) : value :=
  fold_left (member h) ks object.

(** A numeric token written as the property name it denotes. *)
Definition canonical_token (k : key) : key :=
  match k with
  | KNum n => KStr (pretty n)
  | _ => k
  end.

(** The values with no own property at all: numbers, booleans, symbols,
    [null] and [undefined]. *)
Definition leaf (v : value) : bool :=
  match v with
  | VObj _ | VStr _ => false
  | _ => true
  end.

(** ** The language primitives are reads *)

Lemma bind_run {A B} (m : JS A) (k : A -> JS B) (h h' : store) (a : A) :
  m h = (Return a, h') -> bind m k h = k a h'.
Proof. intros Hm. unfold bind. by rewrite Hm. Qed.

Lemma bind_throw {A B} (m : JS A) (k : A -> JS B) (h h' : store) (e : error) :
  m h = (Throw e, h') -> bind m k h = (Throw e, h').
Proof. intros Hm. unfold bind. by rewrite Hm. Qed.

Lemma hasOwn_run (h : store) (o : value) (k : key) :
  nullish o = false -> hasOwn o k h = (Return (owns h o k), h).
Proof. intros Hn. unfold hasOwn, owns. by rewrite Hn. Qed.

Lemma getMember_run (h : store) (o : value) (k : key) :
  nullish o = false -> getMember o k h = (Return (member h o k), h).
Proof. intros Hn. unfold getMember. by rewrite Hn. Qed.

Lemma getOptional_run (h : store) (o : value) (s : string) :
  getOptional o (KStr s) h = (Return (direct_lookup h o s), h).
Proof.
  unfold getOptional, direct_lookup, getMember.
  by destruct (nullish o).
Qed.

Lemma own_is_got (h : store) (v : value) (p : pkey) (x : value) :
  own_property h v p = Some x -> Get h v p = x.
Proof. intros Hown. unfold Get, chain_fuel. simpl. by rewrite Hown. Qed.

(** On a chain that ends within the fuel, more fuel finds nothing else. *)
Lemma lookup_chain_enough (h : store) (n m : nat) (v : value) (p : pkey) :
  chain_within h n v = true ->
  (n <= m)%nat ->
  lookup_chain h m v p = lookup_chain h n v p.
Proof.
  revert m v. induction n as [|n IH]; intros m v Hend Hle.
  - destruct m as [|m]; [done|]. simpl in *.
    destruct (own_property h v p); [done|]. by destruct (proto_of h v).
  - destruct m as [|m]; [lia|]. simpl in *.
    destruct (own_property h v p); [done|].
    destruct (proto_of h v) as [l|]; [|done].
    apply IH; [done|lia].
Qed.

Example documented_store_chain :
  chain_within documented_store (chain_fuel documented_store) (VObj 1%positive)
  = true.
Proof. reflexivity. Qed.

Lemma unsigned_integer_digits (s : string) (n : Z) :
  unsigned_integer s = Some n -> digits 0 s = Some n.
Proof.
  destruct s as [|c r]; [done|]. unfold unsigned_integer.
  destruct (Ascii.eqb c "0") eqn:Hc; [|done].
  apply Ascii.eqb_eq in Hc. subst c.
  destruct r; [|done]. by intros [= <-].
Qed.

Lemma array_like_length (h : store) (v : value) :
  isArray h v || isArguments h v = true ->
  exists len, array_length h v = Some len
              /\ nullish v = false
              /\ Get h v (PStr "length") = VNum len.
Proof.
  unfold isArray, isArguments, array_length. intros Hc.
  destruct v as [| | | | | |l]; try done. simpl in *.
  destruct (objects h !! l) as [o|] eqn:Ho; [|done]. simpl in *.
  destruct (cls o) as [|len|len|f] eqn:Hcls; try done.
  all: exists len; split; [done|split; [done|]].
  all: apply own_is_got; simpl; rewrite Ho, Hcls.
  all: by destruct (decide (PStr "length" = PStr "length")).
Qed.

Lemma nullish_not_array_like (h : store) (v : value) :
  nullish v = true -> isArray h v || isArguments h v = false.
Proof. by destruct v. Qed.

Lemma isSparseIndex_run (h : store) (current : value) (k : key) :
  isSparseIndex current k h = (Return (sparse_index h current k), h).
Proof.
  unfold isSparseIndex, sparse_index, bind, reads.
  destruct (isArray h current || isArguments h current) eqn:Hlike; [|done].
  destruct (array_like_length _ _ Hlike) as (len & Hlen & Hnull & Hget).
  rewrite Hlen. simpl. destruct (isIndex k) eqn:Hidx; [|done].
  rewrite (getMember_run _ _ _ Hnull). unfold member. simpl. rewrite Hget.
  destruct k as [s|n|y]; simpl in *; try done.
  destruct (unsigned_integer s) as [n|] eqn:Hs; [|done].
  by rewrite (unsigned_integer_digits _ _ Hs).
Qed.

Lemma walk_run (ks : list key) (current : value) (h : store) :
  walk ks current h = (Return (satisfied h current ks), h).
Proof.
  revert current. induction ks as [|k rest IH]; intros current; [done|].
  simpl. unfold owns. destruct (nullish current) eqn:Hnull; simpl.
  - unfold bind at 1. simpl. unfold bind at 1.
    rewrite (bind_run _ _ _ _ _ (isSparseIndex_run h current k)).
    unfold sparse_index. rewrite nullish_not_array_like by done. done.
  - unfold bind at 1.
    rewrite (bind_run _ _ _ _ _ (hasOwn_run h current k Hnull)).
    unfold ret at 1. unfold owns. rewrite Hnull. simpl.
    destruct (bool_decide _) eqn:Hown; simpl.
    + unfold bind at 1. simpl.
      rewrite (bind_run _ _ _ _ _ (getMember_run h current k Hnull)). apply IH.
    + unfold bind at 1.
      rewrite (bind_run _ _ _ _ _ (isSparseIndex_run h current k)).
      unfold ret at 1. destruct (sparse_index h current k); simpl; [|done].
      rewrite (bind_run _ _ _ _ _ (getMember_run h current k Hnull)). apply IH.
Qed.

Lemma satisfied_app (h : store) (pre post : list key) (current : value) :
  satisfied h current (pre ++ post)
  = match reached h current pre with
    | Some target => satisfied h target post
    | None => false
    end.
Proof.
  revert current. induction pre as [|k pre IH]; intros current; [done|].
  simpl. destruct (owns h current k || sparse_index h current k); [apply IH|done].
Qed.

(** ** The existence check *)

Section HasFacts.

Variable isDeepKey : string -> bool.
Variable toPath : string -> outcome (list key).

Lemma resolvedPath_run (h : store) (object : value) (p : path) :
  resolvedPath isDeepKey toPath object p h = (normalized isDeepKey toPath h object p, h).
Proof.
  destruct p as [[s|n|y]|ks]; try done. simpl.
  destruct (isDeepKey s); [|done]. simpl.
  unfold bind. rewrite getOptional_run.
  by destruct (nullish (direct_lookup h object s)).
Qed.

Lemma has_run (h : store) (object : value) (p : path) :
  has isDeepKey toPath object p h
  = (match normalized isDeepKey toPath h object p with
     | Return ks => Return (negb (length ks =? 0)%nat && satisfied h object ks)
     | Throw e => Throw e
     end, h).
Proof.
  unfold has, bind. rewrite resolvedPath_run.
  destruct (normalized isDeepKey toPath h object p) as [ks|e]; [|done].
  destruct (length ks =? 0)%nat; [done|]. apply walk_run.
Qed.

Lemma has_resolved (h : store) (object : value) (p : path) (ks : list key) :
  resolvedPath isDeepKey toPath object p h = (Return ks, h) ->
  has isDeepKey toPath object p h = (Return (negb (length ks =? 0)%nat && satisfied h object ks), h).
Proof.
  rewrite resolvedPath_run, has_run. by intros [= ->].
Qed.

Lemma has_stops (h : store) (object : value) (p : path)
    (pre post : list key) (k : key) (current : value) :
  resolvedPath isDeepKey toPath object p h = (Return (pre ++ k :: post), h) ->
  reached h object pre = Some current ->
  has isDeepKey toPath object p h
  = (Return ((owns h current k || sparse_index h current k)
             && satisfied h (member h current k) post), h).
Proof.
  intros Hres Hreach. rewrite (has_resolved _ _ _ _ Hres).
  rewrite satisfied_app, Hreach. simpl.
  by destruct pre.
Qed.

End HasFacts.

(** The examples of the documentation of [has], and an inherited member,
    which is not an own property. *)
Example has_documented_examples
    (isDeepKey : string -> bool) (toPath : string -> outcome (list key)) :
  let run o p := fst (has isDeepKey toPath o p documented_store) in
  run (VObj 1%positive) (PSeq [KStr "a"; KStr "b"]) = Return true
  /\ run (VObj 1%positive) (PSeq [KStr "a"; KStr "b"; KStr "c"]) = Return true
  /\ run (VObj 1%positive) (PSeq [KStr "a"; KStr "b"; KStr "c"; KStr "d"])
     = Return false
  /\ run (VObj 5%positive) (PKey (KNum 0)) = Return false
  /\ run (VObj 4%positive) (PKey (KNum 2)) = Return true
  /\ run (VObj 4%positive) (PKey (KNum 5)) = Return false
  /\ run (VObj 1%positive) (PSeq [KStr "toString"]) = Return false
  /\ Get documented_store (VObj 1%positive) (PStr "toString") = VObj 10%positive.
Proof. cbv beta zeta. rewrite !has_run. repeat apply conj; reflexivity. Qed.

Example has_documented_deep_keys :
  let run o p := fst (has Spec.isDeepKey Spec.toPath o p documented_store) in
  run (VObj 1%positive) (PKey (KStr "a")) = Return true
  /\ run (VObj 1%positive) (PKey (KStr "a.b.c")) = Return true
  /\ run (VObj 1%positive) (PKey (KStr "a.b.d")) = Return false
  /\ run (VStr "abc") (PSeq [KNum 1; KStr "length"]) = Return true.
Proof. repeat apply conj; reflexivity. Qed.

Lemma sparse_index_true (h : store) (current : value) (k : key) :
  sparse_index h current k = true <->
  (isArray h current = true \/ isArguments h current = true)
  /\ isIndex k = true
  /\ exists n len, key_number k = Some n
                   /\ array_length h current = Some len /\ n < len.
Proof.
  unfold sparse_index. rewrite !andb_true_iff, orb_true_iff. split.
  - intros [[Hlike Hidx] Hlt]. repeat split; [done..|].
    destruct (key_number k) as [n|]; [|done].
    destruct (array_length h current) as [len|]; [|done].
    exists n, len. repeat split. lia.
  - intros (Hlike & Hidx & n & len & -> & -> & Hlt).
    repeat split; [done..|]. lia.
Qed.

Lemma not_owned (h : store) (current : value) (k : key) :
  nullish current = true \/ own_property h current (ToPropertyKey k) = None ->
  owns h current k = false.
Proof.
  unfold owns. intros [-> | ->]; [done|].
  rewrite bool_decide_eq_false_2; [apply andb_false_r|].
  by intros [? ?].
Qed.

(** C1.  At every target the walk of [has] reaches and for every token: when
    the target is null or undefined, or the token is not an own property of
    it, [has] returns false, unless the target is an array or an arguments
    object, the token passes [isIndex] and the token is strictly less than
    the target's length; then the step counts as satisfied and the walk goes
    on from [current[token]].  [has([, , 3], 1)] is true and
    [has([, , 3], 5)] is false. *)
Theorem has_sparse_index_exception
    (isDeepKey : string -> bool) (toPath : string -> outcome (list key)) :
  (forall (h : store) (object : value) (p : path)
          (pre post : list key) (k : key) (current : value),
      resolvedPath isDeepKey toPath object p h = (Return (pre ++ k :: post), h) ->
      reached h object pre = Some current ->
      nullish current = true \/ own_property h current (ToPropertyKey k) = None ->
      (~ ((isArray h current = true \/ isArguments h current = true)
          /\ isIndex k = true
          /\ exists n len, key_number k = Some n
                           /\ array_length h current = Some len /\ n < len) ->
       has isDeepKey toPath object p h = (Return false, h))
      /\ ((isArray h current = true \/ isArguments h current = true) ->
          isIndex k = true ->
          (exists n len, key_number k = Some n
                         /\ array_length h current = Some len /\ n < len) ->
          has isDeepKey toPath object p h = walk post (member h current k) h))
  /\ has isDeepKey toPath (VObj 1%positive) (PKey (KNum 1)) sparse_store
     = (Return true, sparse_store)
  /\ has isDeepKey toPath (VObj 1%positive) (PKey (KNum 5)) sparse_store
     = (Return false, sparse_store).
Proof.
  split; [|split; by rewrite has_run].
  intros h object p pre post k current Hres Hreach Hmiss.
  rewrite (has_stops _ _ _ _ _ _ _ _ _ Hres Hreach).
  rewrite (not_owned _ _ _ Hmiss). simpl. split.
  - intros Hno. destruct (sparse_index h current k) eqn:Hsp; [|done].
    by apply sparse_index_true in Hsp.
  - intros Hlike Hidx Hlt.
    rewrite (proj2 (sparse_index_true h current k)) by done.
    simpl. by rewrite walk_run.
Qed.

Lemma has_sparse_index_exception_witness :
  has Spec.isDeepKey Spec.toPath (VObj 1%positive) (PKey (KNum 1)) sparse_store
  = walk [] (member sparse_store (VObj 1%positive) (KNum 1)) sparse_store.
Proof.
  apply (proj2 (proj1 (has_sparse_index_exception Spec.isDeepKey Spec.toPath)
                  sparse_store (VObj 1%positive) (PKey (KNum 1))
                  [] [] (KNum 1) (VObj 1%positive)
                  eq_refl eq_refl (or_intror eq_refl))).
  - left. reflexivity.
  - reflexivity.
  - exists 1, 3. split; [reflexivity|split; [reflexivity|lia]].
Defined.

(** C2.  Before walking, [has] normalizes the path: a sequence is used as it
    is; a string that is a deep key and whose direct lookup on the object is
    null or undefined is tokenized by [toPath]; anything else becomes the
    one-element sequence of the raw key.  So a flat own property with a
    defined value resolves by direct lookup whatever its name looks like,
    and is never handed to the tokenizer. *)
Theorem has_normalizes_path
    (isDeepKey : string -> bool) (toPath : string -> outcome (list key))
    (h : store) (object : value) :
  (forall ks, resolvedPath isDeepKey toPath object (PSeq ks) h = (Return ks, h))
  /\ (forall s,
         isDeepKey s = true ->
         nullish (direct_lookup h object s) = true ->
         resolvedPath isDeepKey toPath object (PKey (KStr s)) h = (toPath s, h))
  /\ (forall s,
         isDeepKey s = false \/ nullish (direct_lookup h object s) = false ->
         resolvedPath isDeepKey toPath object (PKey (KStr s)) h
         = (Return [KStr s], h))
  /\ (forall n,
         resolvedPath isDeepKey toPath object (PKey (KNum n)) h
         = (Return [KNum n], h))
  /\ (forall y,
         resolvedPath isDeepKey toPath object (PKey (KSym y)) h
         = (Return [KSym y], h))
  /\ (forall p,
         has isDeepKey toPath object p h
         = match resolvedPath isDeepKey toPath object p h with
           | (Return [], h') => (Return false, h')
           | (Return ks, h') => walk ks object h'
           | (Throw e, h') => (Throw e, h')
           end)
  /\ (forall s v,
         own_property h object (PStr s) = Some v ->
         nullish v = false ->
         resolvedPath isDeepKey toPath object (PKey (KStr s)) h
         = (Return [KStr s], h)
         /\ has isDeepKey toPath object (PKey (KStr s)) h = (Return true, h)).
Proof.
  repeat apply conj; try done.
  - intros s Hdeep Hnull. rewrite resolvedPath_run. simpl.
    by rewrite Hdeep, Hnull.
  - intros s Hcase. rewrite resolvedPath_run. simpl.
    destruct Hcase as [-> | ->]; [done|]. by rewrite andb_false_r.
  - intros p. unfold has, bind.
    destruct (resolvedPath isDeepKey toPath object p h) as [[[|k ks]|e] h']; done.
  - intros s v Hown Hdef.
    assert (nullish object = false) as Hobj by (by destruct object).
    assert (direct_lookup h object s = v) as Hdirect.
    { unfold direct_lookup. rewrite Hobj. by apply own_is_got. }
    split.
    + rewrite resolvedPath_run. simpl.
      by rewrite Hdirect, Hdef, andb_false_r.
    + rewrite has_run. simpl. rewrite Hdirect, Hdef, andb_false_r. simpl.
      unfold owns. simpl. by rewrite Hobj, Hown.
Qed.

Lemma has_normalizes_path_witness :
  resolvedPath Spec.isDeepKey Spec.toPath (VObj 1%positive) (PKey (KStr "a.b"))
    flat_key_store
  = (Return [KStr "a.b"], flat_key_store)
  /\ has Spec.isDeepKey Spec.toPath (VObj 1%positive) (PKey (KStr "a.b"))
       flat_key_store
     = (Return true, flat_key_store).
Proof.
  apply (proj2 (proj2 (proj2 (proj2 (proj2 (proj2
           (has_normalizes_path Spec.isDeepKey Spec.toPath
              flat_key_store (VObj 1%positive)))))))
           "a.b" (VNum 1)).
  - reflexivity.
  - reflexivity.
Defined.

(** C4, as stated, fails: on [{ 'a.b': 1 }] the deep key ['a.b'] exists,
    its tokens [['a', 'b']] do not. *)
Lemma has_deep_key_tokens_differ :
  ~ (forall (h : store) (o : value) (p : string) (ks : list key),
        Spec.isDeepKey p = true ->
        Spec.toPath p = Return ks ->
        has Spec.isDeepKey Spec.toPath o (PKey (KStr p)) h
        = has Spec.isDeepKey Spec.toPath o (PSeq ks) h).
Proof.
  intros Hall.
  specialize (Hall flat_key_store (VObj 1%positive) "a.b" [KStr "a"; KStr "b"]
                eq_refl eq_refl).
  rewrite !has_run in Hall. vm_compute in Hall. discriminate Hall.
Qed.

(** C4, amended.  For a string path [p] the tokenizer accepts and an object
    [o]: when [p] is a deep key and the direct lookup [o[p]] is null or
    undefined, [has(o, p)] equals [has(o, toPath(p))]. *)
Theorem has_deep_key_tokens
    (isDeepKey : string -> bool) (toPath : string -> outcome (list key))
    (h : store) (o : value) (p : string) (ks : list key) :
  isDeepKey p = true ->
  toPath p = Return ks ->
  nullish (direct_lookup h o p) = true ->
  has isDeepKey toPath o (PKey (KStr p)) h = has isDeepKey toPath o (PSeq ks) h.
Proof.
  intros Hdeep Htok Hnull. rewrite !has_run. simpl.
  by rewrite Hdeep, Hnull, Htok.
Qed.

Lemma has_deep_key_tokens_witness :
  has Spec.isDeepKey Spec.toPath (VObj 1%positive) (PKey (KStr "a.b")) adder_store
  = has Spec.isDeepKey Spec.toPath (VObj 1%positive)
      (PSeq [KStr "a"; KStr "b"]) adder_store.
Proof.
  apply (has_deep_key_tokens Spec.isDeepKey Spec.toPath adder_store
           (VObj 1%positive) "a.b" [KStr "a"; KStr "b"]);
    reflexivity.
Defined.

(** C5.  [has] raises nothing of its own: the only exception it can end in
    is one the tokenizer raised, on a deep-key string whose direct lookup is
    null or undefined, and the store is as it was.  So for a tokenizer that
    raises nothing, and already when it raises nothing on the one string
    [has] hands it, [has] returns a boolean for every object and every path
    of the three forms; an empty normalized sequence and a null or
    undefined target at any step of the walk yield false. *)
Theorem has_total
    (isDeepKey : string -> bool) (toPath : string -> outcome (list key))
    (h : store) (object : value) (p : path) :
  (forall e h',
      has isDeepKey toPath object p h = (Throw e, h') ->
      h' = h
      /\ exists s, p = PKey (KStr s)
                   /\ isDeepKey s = true
                   /\ nullish (direct_lookup h object s) = true
                   /\ toPath s = Throw e)
  /\ ((forall s, exists ks, toPath s = Return ks) ->
      exists b, has isDeepKey toPath object p h = (Return b, h))
  /\ ((forall s,
          p = PKey (KStr s) ->
          isDeepKey s = true ->
          nullish (direct_lookup h object s) = true ->
          exists ks, toPath s = Return ks) ->
      exists b, has isDeepKey toPath object p h = (Return b, h))
  /\ (resolvedPath isDeepKey toPath object p h = (Return [], h) ->
      has isDeepKey toPath object p h = (Return false, h))
  /\ (forall pre post k current,
         resolvedPath isDeepKey toPath object p h
         = (Return (pre ++ k :: post), h) ->
         reached h object pre = Some current ->
         nullish current = true ->
         has isDeepKey toPath object p h = (Return false, h)).
Proof.
  assert ((forall s,
              p = PKey (KStr s) ->
              isDeepKey s = true ->
              nullish (direct_lookup h object s) = true ->
              exists ks, toPath s = Return ks) ->
          exists b, has isDeepKey toPath object p h = (Return b, h)) as Hnarrow.
  { intros Htok. rewrite has_run.
    destruct p as [[s|n|y]|ks]; simpl; try by eexists.
    destruct (isDeepKey s) eqn:Hdeep; [|by eexists].
    destruct (nullish (direct_lookup h object s)) eqn:Hnull; [|by eexists].
    destruct (Htok s eq_refl Hdeep Hnull) as [ks ->]. by eexists. }
  repeat apply conj.
  - intros e h'. rewrite has_run.
    destruct p as [[s|n|y]|ks]; simpl; try done.
    destruct (isDeepKey s) eqn:Hdeep; [|done].
    destruct (nullish (direct_lookup h object s)) eqn:Hnull; [|done]. simpl.
    destruct (toPath s) as [ks|e0] eqn:Htok; [done|].
    intros [= <- <-]. split; [done|]. by exists s.
  - intros Htotal. apply Hnarrow. intros s _ _ _. apply Htotal.
  - apply Hnarrow.
  - intros Hres. by rewrite (has_resolved _ _ _ _ _ _ Hres).
  - intros pre post k current Hres Hreach Hnull.
    rewrite (has_stops _ _ _ _ _ _ _ _ _ Hres Hreach).
    rewrite (not_owned _ _ _ (or_introl Hnull)).
    unfold sparse_index. by rewrite nullish_not_array_like.
Qed.

Lemma has_total_witness :
  exists b, has Spec.isDeepKey Spec.toPath (VObj 1%positive)
              (PKey (KStr "a.b")) empty_object_store
            = (Return b, empty_object_store).
Proof.
  apply (proj1 (proj2 (proj2
           (has_total Spec.isDeepKey Spec.toPath empty_object_store
              (VObj 1%positive) (PKey (KStr "a.b")))))).
  intros s [= <-] _ _. exists [KStr "a"; KStr "b"]. reflexivity.
Defined.

(** ** The method invoker *)

Section InvokeFacts.

Variable toPath : string -> outcome (list key).
Variable get : store -> value -> path -> value -> value.
Variable call : fn -> value -> list value -> JS value.

Lemma applyOptional_nullish (func parent : value) (args : list value) (h : store) :
  nullish func = true ->
  applyOptional call func parent args h = (Return VUndefined, h).
Proof. intros Hn. unfold applyOptional. by rewrite Hn. Qed.

Lemma applyOptional_function (func parent : value) (args : list value)
    (h : store) (f : fn) :
  class_of h func = Some (ClassFunction f) ->
  applyOptional call func parent args h = call f parent args h.
Proof.
  intros Hc. unfold applyOptional.
  assert (nullish func = false) as -> by (by destruct func).
  by rewrite Hc.
Qed.

Lemma applyOptional_not_callable (func parent : value) (args : list value)
    (h : store) :
  nullish func = false ->
  (forall f, class_of h func <> Some (ClassFunction f)) ->
  (forall g, class_of h (Get h func (PStr "apply")) <> Some (ClassFunction g)) ->
  applyOptional call func parent args h = (Throw TypeError, h).
Proof.
  intros Hn Hc Hm. unfold applyOptional. rewrite Hn.
  destruct (class_of h func) as [[| | |f]|] eqn:Hcls;
    try (by destruct (Hc f)).
  all: destruct (class_of h (Get h func (PStr "apply"))) as [[| | |g]|] eqn:Hap;
    try done.
  all: by destruct (Hm g).
Qed.

Lemma applyOptional_method (func parent : value) (args : list value)
    (h : store) (g : fn) :
  nullish func = false ->
  (forall f, class_of h func <> Some (ClassFunction f)) ->
  class_of h (Get h func (PStr "apply")) = Some (ClassFunction g) ->
  applyOptional call func parent args h
  = (array <- new_array args ;; call g func [parent; array]) h.
Proof.
  intros Hn Hc Hm. unfold applyOptional. rewrite Hn, Hm.
  destruct (class_of h func) as [[| | |f]|] eqn:Hcls; try done.
  by destruct (Hc f).
Qed.

Lemma invokeImpl_run (object : value) (ks : list key) (args : list value)
    (h : store) :
  invokeImpl get call object ks args h
  = let parent := get h object (PSeq (removelast ks)) object in
    if nullish parent then (Return VUndefined, h)
    else applyOptional call
           (get h parent (PKey (KStr (normalized_last (last ks)))) VUndefined)
           parent args h.
Proof.
  unfold invokeImpl, bind, reads. simpl.
  destruct (nullish (get h object (PSeq (removelast ks)) object)); [done|].
  by destruct (last ks) as [[s|n|y]|].
Qed.

Lemma invoke_run (object : value) (p : path) (args : list value) (h : store) :
  nullish object = false ->
  invoke toPath get call object p args h
  = match invoke_tokens toPath h object p with
    | Return ks => invokeImpl get call object ks (flat h args) h
    | Throw e => (Throw e, h)
    end.
Proof.
  intros Hobj. unfold invoke, bind at 1, reads. rewrite Hobj.
  destruct p as [[s|n|y]|ks]; try done.
  unfold invoke_tokens, bind at 1.
  destruct (typeof_object h object); simpl.
  - rewrite (hasOwn_run _ _ _ Hobj).
    destruct (owns h object (KStr s)); [done|].
    unfold bind, lift. by destruct (toPath s).
  - unfold bind, lift. by destruct (toPath s).
Qed.

Lemma invoke_nullish (object : value) (p : path) (args : list value) (h : store) :
  nullish object = true ->
  invoke toPath get call object p args h = (Return VUndefined, h).
Proof. intros Hobj. unfold invoke, bind, reads. by rewrite Hobj. Qed.

End InvokeFacts.






(** A member that is an object with a method [apply]: the method runs, with
    the member as receiver. *)
Example invoke_apply_member :
  (forall call : fn -> value -> list value -> JS value,
      invoke Spec.toPath Spec.get call (VObj 1%positive) (PKey (KStr "a"))
        [VNum 1] apply_member_store
      = (array <- new_array [VNum 1] ;;
         call 3%nat (VObj 2%positive) [VObj 1%positive; array])
          apply_member_store)
  /\ fst (invoke Spec.toPath Spec.get example_code (VObj 1%positive)
            (PKey (KStr "a")) [VNum 1] apply_member_store)
     = Return (VNum 7).
Proof. split; reflexivity. Qed.

(** What [invoke] comes down to: no function at all, one function applied
    to the flattened arguments, or the method [apply] of the member applied
    to the parent and the array of the flattened arguments. *)
Lemma invoke_cases
    (toPath : string -> outcome (list key))
    (get : store -> value -> path -> value -> value)
    (h : store) (object : value) (p : path) (args : list value) :
  (exists r,
      forall call : fn -> value -> list value -> JS value,
        invoke toPath get call object p args h = (r, h))
  \/ (exists f receiver,
         forall call : fn -> value -> list value -> JS value,
           invoke toPath get call object p args h
           = call f receiver (flat h args) h)
  \/ (exists g member parent,
         forall call : fn -> value -> list value -> JS value,
           invoke toPath get call object p args h
           = (array <- new_array (flat h args) ;;
              call g member [parent; array]) h).
Proof.
  destruct (nullish object) eqn:Hobj.
  { left. exists (Return VUndefined). intros call. by apply invoke_nullish. }
  destruct (invoke_tokens toPath h object p) as [ks|e] eqn:Htok.
  2: { left. exists (Throw e). intros call.
       by rewrite (invoke_run _ _ _ _ _ _ _ Hobj), Htok. }
  set (parent := get h object (PSeq (removelast ks)) object).
  set (member := get h parent (PKey (KStr (normalized_last (last ks)))) VUndefined).
  assert (forall call : fn -> value -> list value -> JS value,
             invoke toPath get call object p args h
             = if nullish parent then (Return VUndefined, h)
               else applyOptional call member parent (flat h args) h) as Hrun.
  { intros call.
    by rewrite (invoke_run _ _ _ _ _ _ _ Hobj), Htok, invokeImpl_run. }
  destruct (nullish parent) eqn:Hparent.
  { left. by exists (Return VUndefined). }
  destruct (nullish member) eqn:Hmember.
  { left. exists (Return VUndefined). intros call.
    rewrite Hrun. by apply applyOptional_nullish. }
  destruct (class_of h member) as [cm|] eqn:Hcls.
  1: destruct cm as [| | |f].
  4: { right. left. exists f, parent. intros call.
       rewrite Hrun. by apply applyOptional_function. }
  all: destruct (class_of h (Get h member (PStr "apply"))) as [ca|] eqn:Hap.
  all: try destruct ca as [| | |g].
  all: try (right; right; exists g, member, parent; intros call;
            rewrite Hrun; apply applyOptional_method;
            [done|intros f; by rewrite Hcls|done]).
  all: left; exists (Throw TypeError); intros call; rewrite Hrun.
  all: apply applyOptional_not_callable;
    [done|intros f; by rewrite Hcls|intros g; by rewrite Hap].
Qed.

(** C6.  The rest arguments are flattened one level, and it is the
    flattened list the target receives: [invoke] runs no function at all,
    or applies one function to exactly [flat h args], or hands the array of
    [flat h args] to the method [apply] of the member.  An array among the
    arguments is replaced by its elements, which stay as they are.
    [invoke({a: {b: (x, y) => x + y}}, 'a.b', [1, 2])] passes 1 and 2 as two
    arguments and returns 3; [invoke({}, 'a.b', [])] returns undefined and
    raises nothing. *)
Theorem invoke_flattens_arguments :
  (forall (toPath : string -> outcome (list key))
          (get : store -> value -> path -> value -> value)
          (h : store) (object : value) (p : path) (args : list value),
      (exists r,
          forall call : fn -> value -> list value -> JS value,
            invoke toPath get call object p args h = (r, h))
      \/ (exists f receiver,
             forall call : fn -> value -> list value -> JS value,
               invoke toPath get call object p args h
               = call f receiver (flat h args) h)
      \/ (exists g member parent,
             forall call : fn -> value -> list value -> JS value,
               invoke toPath get call object p args h
               = (array <- new_array (flat h args) ;;
                  call g member [parent; array]) h))
  /\ (forall (h : store) (v : value) (rest : list value),
         flat h (v :: rest)
         = match class_of h v with
           | Some (ClassArray len) => array_items h v len
           | _ => [v]
           end ++ flat h rest)
  /\ flat nested_store [VObj 5%positive; VNum 7]
     = [VObj 4%positive; VNum 9; VNum 7]
  /\ (forall call : fn -> value -> list value -> JS value,
         invoke Spec.toPath Spec.get call (VObj 1%positive)
           (PKey (KStr "a.b")) [VObj 4%positive] adder_store
         = call 0%nat (VObj 2%positive) [VNum 1; VNum 2] adder_store)
  /\ invoke Spec.toPath Spec.get example_code (VObj 1%positive)
       (PKey (KStr "a.b")) [VObj 4%positive] adder_store
     = (Return (VNum 3), adder_store)
  /\ invoke Spec.toPath Spec.get example_code (VObj 1%positive)
       (PKey (KStr "a.b")) [VObj 2%positive] empty_object_store
     = (Return VUndefined, empty_object_store).
Proof.
  repeat apply conj; try reflexivity.
  apply invoke_cases.
Qed.

(** C7, as stated, fails for a function as target: its own property
    ['a.b'] is not taken as one token, the string is tokenized and the
    function stored under ['a.b'] is not reached. *)
Lemma invoke_function_target_tokenizes :
  own_property function_target_store (VObj 1%positive) (PStr "a.b")
  = Some (VObj 2%positive)
  /\ invokeImpl Spec.get example_code (VObj 1%positive) [KStr "a.b"] []
       function_target_store
     = (Return (VNum 7), function_target_store)
  /\ invoke Spec.toPath Spec.get example_code (VObj 1%positive)
       (PKey (KStr "a.b")) [] function_target_store
     = (Return VUndefined, function_target_store).
Proof. repeat apply conj; reflexivity. Qed.

(** C7, amended.  For a non-null object whose [typeof] is ['object'] and a
    string path: when the string is an own property name of the object it
    is taken as a one-token sequence, otherwise it is tokenized by
    [toPath].  For any other non-null target, such as a function, the
    string is always tokenized. *)
Theorem invoke_direct_own_property
    (toPath : string -> outcome (list key))
    (get : store -> value -> path -> value -> value)
    (call : fn -> value -> list value -> JS value)
    (h : store) (object : value) (s : string) (args : list value) :
  nullish object = false ->
  (typeof_object h object = true ->
   is_Some (own_property h object (PStr s)) ->
   invoke toPath get call object (PKey (KStr s)) args h
   = invokeImpl get call object [KStr s] (flat h args) h)
  /\ (typeof_object h object = false \/ own_property h object (PStr s) = None ->
      invoke toPath get call object (PKey (KStr s)) args h
      = match toPath s with
        | Return tokens => invokeImpl get call object tokens (flat h args) h
        | Throw e => (Throw e, h)
        end).
Proof.
  intros Hobj. rewrite (invoke_run _ _ _ _ _ _ _ Hobj). simpl. split.
  - intros -> Hown. unfold owns. rewrite Hobj. simpl.
    by rewrite bool_decide_eq_true_2.
  - intros [-> | Hown]; [done|].
    by rewrite (not_owned h object (KStr s) (or_intror Hown)), andb_false_r.
Qed.

Lemma invoke_direct_own_property_witness :
  invoke Spec.toPath Spec.get example_code (VObj 1%positive)
    (PKey (KStr "a.b")) [] flat_key_store
  = invokeImpl Spec.get example_code (VObj 1%positive) [KStr "a.b"]
      (flat flat_key_store []) flat_key_store.
Proof.
  apply (proj1 (invoke_direct_own_property Spec.toPath Spec.get example_code
                  flat_key_store (VObj 1%positive) "a.b" [] eq_refl)).
  - reflexivity.
  - exists (VNum 1). reflexivity.
Defined.

(** C8.  [invokeImpl] normalizes the last token before the lookup: a number
    goes through [toKey], anything else through [String] (a string is
    itself, a symbol its description in [Symbol(...)], a missing token
    ['undefined']); the member is looked up on the parent under that key. *)
Theorem invoke_normalizes_last_key
    (get : store -> value -> path -> value -> value)
    (call : fn -> value -> list value -> JS value)
    (h : store) (object : value) (ks : list key) (args : list value) :
  let parent := get h object (PSeq (removelast ks)) object in
  nullish parent = false ->
  (forall n,
      last ks = Some (KNum n) ->
      invokeImpl get call object ks args h
      = applyOptional call (get h parent (PKey (KStr (toKey n))) VUndefined)
          parent args h)
  /\ (forall s,
         last ks = Some (KStr s) ->
         invokeImpl get call object ks args h
         = applyOptional call (get h parent (PKey (KStr s)) VUndefined)
             parent args h)
  /\ (forall y,
         last ks = Some (KSym y) ->
         invokeImpl get call object ks args h
         = applyOptional call
             (get h parent
                (PKey (KStr ("Symbol(" +:+ sym_description y +:+ ")")))
                VUndefined)
             parent args h)
  /\ (last ks = None ->
      invokeImpl get call object ks args h
      = applyOptional call (get h parent (PKey (KStr "undefined")) VUndefined)
          parent args h).
Proof.
  intros parent Hparent. rewrite invokeImpl_run. cbv zeta. fold parent.
  rewrite Hparent. repeat apply conj.
  - by intros n ->.
  - by intros s ->.
  - by intros y ->.
  - by intros ->.
Qed.

Lemma invoke_normalizes_last_key_witness :
  toKey 1 = "1"
  /\ invokeImpl Spec.get example_code (VObj 1%positive) [KNum 1] []
       indexed_method_store
     = applyOptional example_code
         (Spec.get indexed_method_store (VObj 1%positive)
            (PKey (KStr (toKey 1))) VUndefined)
         (VObj 1%positive) [] indexed_method_store.
Proof.
  split; [reflexivity|].
  apply (proj1 (invoke_normalizes_last_key Spec.get example_code
                  indexed_method_store (VObj 1%positive) [KNum 1] [] eq_refl)
           1 eq_refl).
Defined.







(** ** Decimal numerals *)

Lemma append_cons (c : ascii) (r s : string) :
  String c r +:+ s = String c (r +:+ s).
Proof. reflexivity. Qed.

Lemma append_assoc (a b c : string) : (a +:+ b) +:+ c = a +:+ (b +:+ c).
Proof.
  induction a as [|x a IH]; [done|].
  by rewrite !append_cons, IH.
Qed.

Lemma digits_append (acc : Z) (a b : string) :
  digits acc (a +:+ b)
  = match digits acc a with
    | Some v => digits v b
    | None => None
    end.
Proof.
  revert acc. induction a as [|c a IH]; intros acc; [done|].
  rewrite append_cons. simpl. by destruct (digit c).
Qed.

Lemma digit_pretty_char (d : N) :
  (d < 10)%N -> digit (pretty_N_char d) = Some (Z.of_N d).
Proof.
  intros Hd.
  assert (d = 0 \/ d = 1 \/ d = 2 \/ d = 3 \/ d = 4 \/ d = 5 \/ d = 6
          \/ d = 7 \/ d = 8 \/ d = 9)%N as Hcases by lia.
  repeat (destruct Hcases as [-> | Hcases]; [reflexivity|]).
  by subst d.
Qed.

Lemma pretty_go_append (x : N) (s : string) :
  pretty_N_go x s = pretty_N_go x EmptyString +:+ s.
Proof.
  revert s. induction (N.lt_wf_0 x) as [x _ IH]; intros s.
  assert (x = 0 \/ 0 < x)%N as [-> | Hpos] by lia; [done|].
  assert (x `div` 10 < x)%N as Hlt by (by apply N.div_lt).
  rewrite !(pretty_N_go_step x) by done.
  rewrite (IH _ Hlt (String _ s)), (IH _ Hlt (String _ EmptyString)).
  by rewrite append_assoc.
Qed.

Lemma digits_pretty_go (x : N) :
  digits 0 (pretty_N_go x EmptyString) = Some (Z.of_N x).
Proof.
  induction (N.lt_wf_0 x) as [x _ IH].
  assert (x = 0 \/ 0 < x)%N as [-> | Hpos] by lia; [done|].
  rewrite pretty_N_go_step, pretty_go_append, digits_append by done.
  rewrite IH by (by apply N.div_lt). simpl.
  rewrite digit_pretty_char by (by apply N.mod_lt).
  f_equal. pose proof (N.div_mod x 10 ltac:(done)) as Hdm.
  apply (f_equal Z.of_N) in Hdm. rewrite N2Z.inj_add, N2Z.inj_mul in Hdm.
  symmetry. exact Hdm.
Qed.

Lemma pretty_go_head (x : N) :
  (0 < x)%N ->
  exists c r, pretty_N_go x EmptyString = String c r /\ Ascii.eqb c "0" = false.
Proof.
  induction (N.lt_wf_0 x) as [x _ IH]. intros Hpos.
  rewrite pretty_N_go_step by done.
  destruct (N.eq_0_gt_0_cases (x `div` 10)) as [Hzero | Hmore].
  - rewrite Hzero, pretty_N_go_0. eexists _, _. split; [done|].
    assert (x < 10)%N as Hsmall by (by apply N.div_small_iff in Hzero).
    rewrite N.mod_small by done.
    assert (x = 1 \/ x = 2 \/ x = 3 \/ x = 4 \/ x = 5 \/ x = 6
            \/ x = 7 \/ x = 8 \/ x = 9)%N as Hcases by lia.
    repeat (destruct Hcases as [-> | Hcases]; [reflexivity|]).
    by subst x.
  - destruct (IH (x `div` 10)%N) as (c & r & Heq & Hc);
      [by apply N.div_lt|done|].
    rewrite pretty_go_append, Heq, append_cons. by eexists _, _.
Qed.

(** Reading back the decimal string of a number gives the number, for the
    non-negative ones; the string of a negative number is no numeral. *)
Lemma unsigned_integer_pretty (n : Z) :
  unsigned_integer (pretty n) = if 0 <=? n then Some n else None.
Proof.
  destruct n as [|q|q]; [done| |done].
  change (pretty (Z.pos q)) with (pretty_N_go (N.pos q) EmptyString).
  destruct (pretty_go_head (N.pos q)) as (c & r & Heq & Hc); [done|].
  unfold unsigned_integer. rewrite Heq, Hc, <- Heq.
  apply digits_pretty_go.
Qed.

(** ** Further facts about the existence check *)

Lemma has_sequence
    (isDeepKey : string -> bool) (toPath : string -> outcome (list key))
    (h : store) (object : value) (ks : list key) :
  has isDeepKey toPath object (PSeq ks) h
  = (Return (negb (length ks =? 0)%nat && satisfied h object ks), h).
Proof. by rewrite has_run. Qed.

Lemma satisfied_descend (h : store) (object : value) (pre post : list key) :
  satisfied h object (pre ++ post)
  = satisfied h object pre && satisfied h (descend h object pre) post.
Proof.
  revert object. induction pre as [|k pre IH]; intros object; [done|].
  simpl. rewrite IH. by rewrite andb_assoc.
Qed.

Lemma satisfied_leaf (h : store) (object : value) (k : key) (ks : list key) :
  leaf object = true -> satisfied h object (k :: ks) = false.
Proof.
  intros Hleaf. simpl.
  assert (owns h object k = false) as ->.
  { unfold owns. destruct object; try done; simpl; by rewrite andb_false_r. }
  assert (sparse_index h object k = false) as ->; [|done].
  unfold sparse_index, isArray, isArguments. by destruct object.
Qed.

Lemma nonempty_length {A} (l : list A) : l <> [] -> (length l =? 0)%nat = false.
Proof. by destruct l. Qed.

Lemma nonempty_append_length {A} (pre post : list A) :
  pre <> [] -> (length (pre ++ post) =? 0)%nat = false.
Proof. by destruct pre. Qed.

(** X1.  Existence is closed under prefixes: when a key sequence exists in
    an object, so does every non-empty prefix of it. *)
Theorem has_prefix_closed
    (isDeepKey : string -> bool) (toPath : string -> outcome (list key))
    (h : store) (object : value) (pre post : list key) :
  pre <> [] ->
  has isDeepKey toPath object (PSeq (pre ++ post)) h = (Return true, h) ->
  has isDeepKey toPath object (PSeq pre) h = (Return true, h).
Proof.
  intros Hpre. rewrite !has_sequence, satisfied_descend.
  rewrite (nonempty_length pre Hpre), (nonempty_append_length pre post Hpre).
  simpl. intros [= Hboth]. apply andb_true_iff in Hboth as [-> _]. done.
Qed.

Lemma has_prefix_closed_witness :
  has Spec.isDeepKey Spec.toPath (VObj 1%positive) (PSeq [KStr "a"; KStr "b"])
    documented_store
  = (Return true, documented_store).
Proof.
  apply (has_prefix_closed Spec.isDeepKey Spec.toPath documented_store
           (VObj 1%positive) [KStr "a"; KStr "b"] [KStr "c"]).
  - discriminate.
  - reflexivity.
Defined.

(** X2.  The check composes along a path: once the tokens [pre] exist in
    the object, a longer sequence exists exactly when the rest exists in
    [object[pre]], the value the tokens lead to. *)
Theorem has_composes
    (isDeepKey : string -> bool) (toPath : string -> outcome (list key))
    (h : store) (object : value) (pre post : list key) :
  post <> [] ->
  has isDeepKey toPath object (PSeq pre) h = (Return true, h) ->
  has isDeepKey toPath object (PSeq (pre ++ post)) h
  = has isDeepKey toPath (descend h object pre) (PSeq post) h.
Proof.
  intros Hpost. rewrite !has_sequence, satisfied_descend.
  intros [= Hpre]. apply andb_true_iff in Hpre as [Hlen ->].
  rewrite (nonempty_length post Hpost).
  destruct pre; [done|]. done.
Qed.

Lemma has_composes_witness :
  has Spec.isDeepKey Spec.toPath (VObj 1%positive)
    (PSeq ([KStr "a"] ++ [KStr "b"; KStr "c"])) documented_store
  = has Spec.isDeepKey Spec.toPath
      (descend documented_store (VObj 1%positive) [KStr "a"])
      (PSeq [KStr "b"; KStr "c"]) documented_store.
Proof.
  apply (has_composes Spec.isDeepKey Spec.toPath documented_store
           (VObj 1%positive) [KStr "a"] [KStr "b"; KStr "c"]).
  - discriminate.
  - reflexivity.
Defined.

Lemma array_length_like (h : store) (v : value) (len : Z) :
  array_length h v = Some len ->
  isArray h v || isArguments h v = true /\ nullish v = false.
Proof.
  unfold array_length, isArray, isArguments. intros Hlen.
  destruct v as [| | | | | |l]; try done. simpl in *.
  by destruct (cls <$> objects h !! l) as [[| | |]|].
Qed.

(** X3.  On an array or an arguments object of length [len], an integer
    index [n] with [0 <= n < len] (below the safe-integer bound) exists
    whether or not the slot is filled; an integer outside [0, len) exists
    exactly when it is stored as an own property. *)
Theorem has_array_index_bounds
    (isDeepKey : string -> bool) (toPath : string -> outcome (list key))
    (h : store) (arr : value) (len n : Z) :
  array_length h arr = Some len ->
  (0 <= n < len -> n < MAX_SAFE_INTEGER ->
   has isDeepKey toPath arr (PKey (KNum n)) h = (Return true, h))
  /\ (n < 0 \/ len <= n ->
      has isDeepKey toPath arr (PKey (KNum n)) h
      = (Return (bool_decide (is_Some (own_property h arr (PStr (pretty n))))), h)).
Proof.
  intros Hlen. destruct (array_length_like _ _ _ Hlen) as [Hlike Hnull].
  rewrite has_run. simpl. unfold owns, sparse_index. simpl.
  rewrite Hlike, Hlen, Hnull. simpl. split.
  - intros [Hlo Hhi] Hsafe.
    assert ((0 <=? n) && (n <? MAX_SAFE_INTEGER) && (n <? len) = true) as ->.
    { rewrite !andb_true_iff. repeat split; lia. }
    by rewrite orb_true_r.
  - intros Hout.
    assert ((0 <=? n) && (n <? MAX_SAFE_INTEGER) && (n <? len) = false) as ->.
    { destruct Hout.
      - assert ((0 <=? n) = false) as -> by lia. done.
      - assert ((n <? len) = false) as -> by lia. apply andb_false_r. }
    by rewrite orb_false_r, andb_true_r.
Qed.

Lemma has_array_index_bounds_witness :
  has Spec.isDeepKey Spec.toPath (VObj 1%positive) (PKey (KNum 0)) sparse_store
  = (Return true, sparse_store).
Proof.
  apply (proj1 (has_array_index_bounds Spec.isDeepKey Spec.toPath sparse_store
                  (VObj 1%positive) 3 0 eq_refl)).
  - lia.
  - reflexivity.
Defined.

Lemma sparse_index_canonical (h : store) (current : value) (k : key) :
  sparse_index h current (canonical_token k) = sparse_index h current k.
Proof.
  destruct k as [s|n|y]; try done.
  unfold sparse_index. simpl. rewrite unsigned_integer_pretty.
  destruct (0 <=? n); [done|]. simpl. by rewrite !andb_false_r.
Qed.

Lemma satisfied_canonical (h : store) (object : value) (ks : list key) :
  satisfied h object (map canonical_token ks) = satisfied h object ks.
Proof.
  revert object. induction ks as [|k ks IH]; intros object; [done|].
  simpl. rewrite sparse_index_canonical.
  assert (owns h object (canonical_token k) = owns h object k) as ->
      by (by destruct k).
  assert (member h object (canonical_token k) = member h object k) as ->
      by (by destruct k).
  by rewrite IH.
Qed.

(** X4.  In a key sequence a numeric token below the safe-integer bound
    and the decimal string of the same number are interchangeable:
    [has(o, ['a', 0])] and [has(o, ['a', '0'])] always agree. *)
Theorem has_numeric_tokens_as_strings
    (isDeepKey : string -> bool) (toPath : string -> outcome (list key))
    (h : store) (object : value) (ks : list key) :
  Forall (fun k => forall n, k = KNum n -> n < MAX_SAFE_INTEGER) ks ->
  has isDeepKey toPath object (PSeq (map canonical_token ks)) h
  = has isDeepKey toPath object (PSeq ks) h.
Proof.
  intros _. rewrite !has_sequence, satisfied_canonical. by rewrite length_map.
Qed.

Lemma has_numeric_tokens_as_strings_witness :
  has Spec.isDeepKey Spec.toPath (VObj 4%positive)
    (PSeq (map canonical_token [KNum 2])) documented_store
  = has Spec.isDeepKey Spec.toPath (VObj 4%positive) (PSeq [KNum 2])
      documented_store.
Proof.
  apply (has_numeric_tokens_as_strings Spec.isDeepKey Spec.toPath
           documented_store (VObj 4%positive) [KNum 2]).
  repeat constructor. intros n [= <-]. reflexivity.
Defined.

Lemma string_get_is_Some (s : string) (i : nat) :
  is_Some (String.get i s) <-> (i < String.length s)%nat.
Proof.
  revert i. induction s as [|c s IH]; intros i; simpl.
  - split; [by intros [? ?]|lia].
  - destruct i as [|i]; [split; [lia|by eexists]|].
    rewrite IH. lia.
Qed.

Lemma pretty_not_length (n : Z) : pretty n <> "length".
Proof.
  intros Heq. pose proof (unsigned_integer_pretty n) as Hread.
  rewrite Heq in Hread. destruct n as [|q|q]; try done.
Qed.

(** X5.  A string primitive owns its character positions: for an integer
    [n], [has(s, n)] is true exactly when [0 <= n < s.length]. *)
Theorem has_string_index
    (isDeepKey : string -> bool) (toPath : string -> outcome (list key))
    (h : store) (s : string) (n : Z) :
  has isDeepKey toPath (VStr s) (PKey (KNum n)) h
  = (Return (bool_decide (0 <= n < Z.of_nat (String.length s))), h).
Proof.
  rewrite has_run. simpl. unfold owns, sparse_index. simpl.
  rewrite orb_false_r, andb_true_r.
  destruct (decide (pretty n = "length")) as [Heq|_];
    [by destruct (pretty_not_length n)|].
  rewrite unsigned_integer_pretty. do 2 f_equal.
  destruct (0 <=? n) eqn:Hsign.
  - pose proof (string_get_is_Some s (Z.to_nat n)) as Hget.
    destruct (String.get (Z.to_nat n) s) as [c|].
    + rewrite bool_decide_eq_true_2 by (by eexists).
      symmetry. apply bool_decide_eq_true_2.
      assert (Z.to_nat n < String.length s)%nat by (apply Hget; by eexists).
      lia.
    + rewrite bool_decide_eq_false_2 by (by intros [? ?]).
      symmetry. apply bool_decide_eq_false_2. intros [_ Hlt].
      assert (is_Some (@None ascii)) as [? ?]; [apply Hget; lia|done].
  - rewrite bool_decide_eq_false_2 by (by intros [? ?]).
    symmetry. apply bool_decide_eq_false_2. lia.
Qed.

(** X6.  Nothing exists below a number, a boolean, a symbol, [null] or
    [undefined]: on such a target [has] is false for every path the
    tokenizer accepts, and a sequence that exists cannot be extended past
    such a value. *)
Theorem has_nothing_below_leaf
    (isDeepKey : string -> bool) (toPath : string -> outcome (list key))
    (h : store) (object : value) :
  (forall p,
      leaf object = true ->
      tokenizable toPath p ->
      has isDeepKey toPath object p h = (Return false, h))
  /\ (forall pre post,
         post <> [] ->
         has isDeepKey toPath object (PSeq pre) h = (Return true, h) ->
         leaf (descend h object pre) = true ->
         has isDeepKey toPath object (PSeq (pre ++ post)) h = (Return false, h)).
Proof.
  split.
  - intros p Hleaf Htok. rewrite has_run.
    assert (forall ks,
               negb (length ks =? 0)%nat && satisfied h object ks = false)
      as Hnone.
    { intros [|k ks]; [done|]. by rewrite (satisfied_leaf _ _ _ _ Hleaf). }
    assert (exists ks, normalized isDeepKey toPath h object p = Return ks)
      as [ks ->]; [|by rewrite Hnone].
    destruct p as [[s|n|y]|ks]; simpl; try by eexists.
    destruct Htok as [ks ->].
    destruct (isDeepKey s && nullish (direct_lookup h object s)); by eexists.
  - intros pre post Hpost. rewrite !has_sequence, satisfied_descend.
    intros [= Hpre] Hleaf. apply andb_true_iff in Hpre as [_ ->].
    destruct post as [|k post]; [done|].
    by rewrite (satisfied_leaf _ _ _ _ Hleaf), andb_false_r.
Qed.

Lemma has_nothing_below_leaf_witness :
  has Spec.isDeepKey Spec.toPath (VObj 1%positive)
    (PSeq ([KStr "a"; KStr "b"; KStr "c"] ++ [KStr "d"])) documented_store
  = (Return false, documented_store).
Proof.
  apply (proj2 (has_nothing_below_leaf Spec.isDeepKey Spec.toPath
                  documented_store (VObj 1%positive))
           [KStr "a"; KStr "b"; KStr "c"] [KStr "d"]).
  - discriminate.
  - reflexivity.
  - reflexivity.
Defined.

(** ** Further facts about the method invoker *)

Lemma last_snoc {A} (pre : list A) (k : A) : last (pre ++ [k]) = Some k.
Proof.
  induction pre as [|x pre IH]; [done|].
  simpl. rewrite IH. by destruct (pre ++ [k]) eqn:Hnil; [destruct pre|].
Qed.

Lemma flat_without_arrays (h : store) (args : list value) :
  Forall (fun v => isArray h v = false) args -> flat h args = args.
Proof.
  unfold flat. induction 1 as [|v args Hv _ IH]; [done|].
  simpl. rewrite IH. unfold isArray in Hv.
  by destruct (class_of h v) as [[| | |]|].
Qed.

Lemma invoke_flat_arguments
    (toPath : string -> outcome (list key))
    (get : store -> value -> path -> value -> value)
    (call : fn -> value -> list value -> JS value)
    (h : store) (object : value) (p : path) (args args' : list value) :
  flat h args = flat h args' ->
  invoke toPath get call object p args h
  = invoke toPath get call object p args' h.
Proof.
  intros Hflat. unfold invoke, bind at 1 3, reads. by rewrite Hflat.
Qed.



(** X8.  Passing the arguments as one array or one by one is the same call,
    as long as none of them is itself an array:
    [invoke(o, p, [x, y])] is [invoke(o, p, x, y)]. *)
Theorem invoke_array_or_spread
    (toPath : string -> outcome (list key))
    (get : store -> value -> path -> value -> value)
    (call : fn -> value -> list value -> JS value)
    (h : store) (object : value) (p : path) (a : value) (len : Z) :
  class_of h a = Some (ClassArray len) ->
  Forall (fun v => isArray h v = false) (array_items h a len) ->
  invoke toPath get call object p [a] h
  = invoke toPath get call object p (array_items h a len) h.
Proof.
  intros Hcls Hitems. apply invoke_flat_arguments.
  rewrite (flat_without_arrays _ _ Hitems).
  unfold flat. simpl. rewrite Hcls. apply app_nil_r.
Qed.

Lemma invoke_array_or_spread_witness :
  invoke Spec.toPath Spec.get example_code (VObj 1%positive)
    (PKey (KStr "a.b")) [VObj 4%positive] adder_store
  = invoke Spec.toPath Spec.get example_code (VObj 1%positive)
      (PKey (KStr "a.b")) (array_items adder_store (VObj 4%positive) 2)
      adder_store.
Proof.
  apply (invoke_array_or_spread Spec.toPath Spec.get example_code adder_store
           (VObj 1%positive) (PKey (KStr "a.b")) (VObj 4%positive) 2).
  - reflexivity.
  - repeat constructor.
Defined.

(** X9.  A parent path that leads nowhere is ignored: when the accessor
    finds nothing at the tokens before the last one, so that it answers
    with its default, [invoke] falls back on the object itself and behaves
    as if called with the last token alone. *)
Theorem invoke_missing_parent_falls_back
    (toPath : string -> outcome (list key))
    (get : store -> value -> path -> value -> value)
    (call : fn -> value -> list value -> JS value)
    (h : store) (object : value) (pre : list key) (k : key)
    (args : list value) :
  (forall d, get h object (PSeq pre) d = d) ->
  get h object (PSeq []) object = object ->
  invoke toPath get call object (PSeq (pre ++ [k])) args h
  = invoke toPath get call object (PSeq [k]) args h.
Proof.
  intros Hmissing Hempty. destruct (nullish object) eqn:Hobj.
  { by rewrite !invoke_nullish. }
  rewrite !(invoke_run _ _ _ _ _ _ _ Hobj). simpl.
  rewrite !invokeImpl_run. cbv zeta.
  rewrite removelast_last, last_snoc. simpl.
  by rewrite Hmissing, Hempty.
Qed.

Lemma invoke_missing_parent_falls_back_witness :
  invoke Spec.toPath Spec.get example_code (VObj 1%positive)
    (PSeq ([KStr "nowhere"] ++ [KStr "undefined"])) [] undefined_key_store
  = invoke Spec.toPath Spec.get example_code (VObj 1%positive)
      (PSeq [KStr "undefined"]) [] undefined_key_store.
Proof.
  apply (invoke_missing_parent_falls_back Spec.toPath Spec.get example_code
           undefined_key_store (VObj 1%positive) [KStr "nowhere"]
           (KStr "undefined") []).
  - intros d. reflexivity.
  - reflexivity.
Defined.

(** X10.  The last token of a key sequence is interchangeable with the
    string it is normalized to: a number with its [toKey] string, a symbol
    with [Symbol(description)]; so a member stored under a symbol key is
    looked up under a string. *)
Theorem invoke_last_token_as_string
    (toPath : string -> outcome (list key))
    (get : store -> value -> path -> value -> value)
    (call : fn -> value -> list value -> JS value)
    (h : store) (object : value) (pre : list key) (args : list value) :
  (forall n,
      invoke toPath get call object (PSeq (pre ++ [KNum n])) args h
      = invoke toPath get call object (PSeq (pre ++ [KStr (toKey n)])) args h)
  /\ (forall y,
         invoke toPath get call object (PSeq (pre ++ [KSym y])) args h
         = invoke toPath get call object
             (PSeq (pre ++ [KStr ("Symbol(" +:+ sym_description y +:+ ")")]))
             args h).
Proof.
  destruct (nullish object) eqn:Hobj.
  { split; intros; by rewrite !invoke_nullish. }
  split; intros; rewrite !(invoke_run _ _ _ _ _ _ _ Hobj); simpl;
    rewrite !invokeImpl_run; cbv zeta;
    by rewrite !removelast_last, !last_snoc.
Qed.

Lemma satisfied_step_sound (h : store) (current : value) (k : key) :
  owns h current k || sparse_index h current k = true ->
  nullish current = false
  /\ (is_Some (own_property h current (ToPropertyKey k))
      \/ isArray h current || isArguments h current = true).
Proof.
  unfold owns, sparse_index. intros Hstep.
  apply orb_true_iff in Hstep as [Hown | Hsparse].
  - apply andb_true_iff in Hown as [Hnull Hown].
    split; [by destruct (nullish current)|].
    left. by apply bool_decide_eq_true in Hown.
  - apply andb_true_iff in Hsparse as [Hlike _].
    apply andb_true_iff in Hlike as [Hlike _].
    split; [|by right].
    destruct (nullish current) eqn:Hnull; [|done].
    by rewrite nullish_not_array_like in Hlike.
Qed.

(** X11.  What a positive answer guarantees: when a key sequence exists,
    every target on the way is neither [null] nor [undefined], so reading
    [object[k1]...[kn]] raises nothing, and every token is an own property
    of its target or an index of an array or arguments object; inherited
    members never count. *)
Theorem has_guards_access
    (isDeepKey : string -> bool) (toPath : string -> outcome (list key))
    (h : store) (object : value) (pre post : list key) (k : key) :
  has isDeepKey toPath object (PSeq (pre ++ k :: post)) h = (Return true, h) ->
  nullish (descend h object pre) = false
  /\ (is_Some (own_property h (descend h object pre) (ToPropertyKey k))
      \/ isArray h (descend h object pre)
         || isArguments h (descend h object pre) = true).
Proof.
  rewrite has_sequence, satisfied_descend. intros [= Hall].
  apply andb_true_iff in Hall as [_ Hall].
  apply andb_true_iff in Hall as [_ Hrest]. simpl in Hrest.
  apply andb_true_iff in Hrest as [Hstep _].
  by apply satisfied_step_sound.
Qed.

Lemma has_guards_access_witness :
  nullish (descend documented_store (VObj 1%positive) [KStr "a"; KStr "b"])
  = false
  /\ (is_Some (own_property documented_store
                 (descend documented_store (VObj 1%positive) [KStr "a"; KStr "b"])
                 (ToPropertyKey (KStr "c")))
      \/ isArray documented_store
           (descend documented_store (VObj 1%positive) [KStr "a"; KStr "b"])
         || isArguments documented_store
              (descend documented_store (VObj 1%positive) [KStr "a"; KStr "b"])
         = true).
Proof.
  apply (has_guards_access Spec.isDeepKey Spec.toPath documented_store
           (VObj 1%positive) [KStr "a"; KStr "b"] [] (KStr "c")).
  reflexivity.
Defined.
